(* Shallow embedding of src/index.ts (spotify-find-preview): the
   search-resolve-scrape pipeline `searchAndGetLinks` and the preview
   extractor `getSpotifyLinks`.

   Effects are modelled explicitly:
   - a JavaScript exception is a value of [thrown]: either an [Error] with
     its [message], or some other thrown value (no [message]);
   - an [async] body is a computation in the small exception monad
     [outcome]; an awaited rejection is a [Throw];
   - the Spotify client, the HTTP fetch (axios + cheerio) and the settlement
     order of concurrent promises are fields of an environment [Env];
   - a JavaScript [number] is NaN, an infinity or a finite value; finite
     values are modelled as rationals [Q], which contain every double. *)

From Stdlib Require Import String List ZArith QArith Bool Lia.
Import ListNotations.
Close Scope Q_scope.
Open Scope string_scope.

(* ------------------------------------------------------------------------- *)
(** * Exceptions and the exception monad *)

Inductive thrown : Type :=
| JsError (message : string)   (* an instance of Error *)
| NonError.                     (* any other thrown value *)

Inductive outcome (A : Type) : Type :=
| Ok (a : A)
| Throw (e : thrown).
Arguments Ok {A} a.
Arguments Throw {A} e.

Definition bind {A B : Type} (m : outcome A) (k : A -> outcome B) : outcome B :=
  match m with
  | Ok a => k a
  | Throw e => Throw e
  end.

Notation "x <- m ;; k" := (bind m (fun x => k))
  (at level 61, m at next level, right associativity).

(** [error instanceof Error ? error.message : 'Unknown error'] *)
Definition errorMessage (e : thrown) : string :=
  match e with
  | JsError m => m
  | NonError => "Unknown error"
  end.

(* ------------------------------------------------------------------------- *)
(** * Data model *)

(** The fields of [SpotifyApi.TrackObjectFull] that the code reads. *)
Record Track : Type := mkTrack {
  t_name : string;
  t_artists : list string;          (* track.artists.map(a => a.name) *)
  t_spotify_url : string;           (* track.external_urls.spotify *)
  t_id : string;
  t_album_name : string;
  t_release_date : string;
  t_popularity : Z;
  t_duration_ms : Z
}.

Record TrackInfo : Type := mkTrackInfo {
  name : string;
  spotifyUrl : string;
  previewUrls : list string;
  trackId : string;
  albumName : string;
  releaseDate : string;
  popularity : Z;
  durationMs : Z
}.

(** [searchQuery?] and [error?] are optional fields: [None] when absent. *)
Record SearchResult : Type := mkSearchResult {
  success : bool;
  searchQuery : option string;
  results : list TrackInfo;
  error : option string
}.

(** A parsed HTML element, as [$('*')] yields it: the values of its
    attributes in [Object.values(element.attribs)] order. *)
Definition Element := list string.
Definition Document := list Element.

(** A JavaScript [number]. *)
Inductive number : Type :=
| NaN
| PosInfinity
| NegInfinity
| Finite (q : Q).

(** The number with integer value [z]. *)
Definition num (z : Z) : number := Finite (inject_Z z).

(** The second parameter [artistOrLimit?: string | number]. *)
Inductive ArtistOrLimit : Type :=
| AL_string (s : string)
| AL_number (n : number)
| AL_undefined.

(** The external collaborators. *)
Record Env : Type := mkEnv {
  SPOTIFY_CLIENT_ID : option string;        (* process.env.SPOTIFY_CLIENT_ID *)
  SPOTIFY_CLIENT_SECRET : option string;
  clientCredentialsGrant : outcome string;  (* the access token *)
  (* searchTracks(query): body.tracks is absent ([None]) or has [items] *)
  searchTracks : string -> outcome (option (list Track));
  (* axios.get(url) followed by cheerio.load(response.data) *)
  fetchDocument : string -> outcome Document;
  (* the order (by index) in which the concurrent extractions settle *)
  settleOrder : list nat
}.

(* ------------------------------------------------------------------------- *)
(** * JavaScript primitives *)

(** JavaScript truthiness of an optional string. *)
Definition truthy (s : option string) : bool :=
  match s with
  | None => false
  | Some v => negb (String.eqb v EmptyString)
  end.

(** [s.includes(sub)] *)
Fixpoint includes (s sub : string) : bool :=
  String.prefix sub s ||
  match s with
  | EmptyString => false
  | String _ s' => includes s' sub
  end.

(** [arr.join(sep)] *)
Definition join (sep : string) (l : list string) : string := String.concat sep l.

(** The abstract operation ToIntegerOrInfinity: NaN is 0, a finite value
    is truncated toward zero, the infinities stay infinite. *)
Inductive IntOrInf : Type :=
| IntFin (z : Z)
| IntPosInf
| IntNegInf.

Definition toIntegerOrInfinity (x : number) : IntOrInf :=
  match x with
  | NaN => IntFin 0
  | PosInfinity => IntPosInf
  | NegInfinity => IntNegInf
  | Finite q => IntFin (Z.quot (Qnum q) (Zpos (Qden q)))
  end.

(** The index [final] that [arr.slice(0, end)] stops at, for an array of
    length [len]: a negative end counts from the back of the array, an end
    past the length is clamped. *)
Definition sliceEnd (len : nat) (end_ : number) : Z :=
  let len := Z.of_nat len in
  match toIntegerOrInfinity end_ with
  | IntNegInf => 0
  | IntPosInf => len
  | IntFin rel => if (rel <? 0)%Z then Z.max (len + rel) 0 else Z.min rel len
  end.

(** [arr.slice(0, end)] *)
Definition slice0 {A : Type} (l : list A) (end_ : number) : list A :=
  firstn (Z.to_nat (sliceEnd (length l) end_)) l.

(** JavaScript [Set<string>]: [add] appends a value not yet present, and
    [Array.from] lists the values in insertion order. *)
Definition set_add (s : list string) (v : string) : list string :=
  if existsb (String.eqb v) s then s else s ++ [v].

(** [Promise.all] over already-started promises. It rejects with the
    reason of the first promise to reject, in settlement order; the
    settlement order is [settleOrder] followed by the index order (so any
    order of the indices can be given). Otherwise it resolves to the values
    in the order of the input array. *)
Fixpoint first_rejection {A : Type} (order : list nat) (outs : list (outcome A))
  : option thrown :=
  match order with
  | [] => None
  | i :: rest =>
      match nth_error outs i with
      | Some (Throw e) => Some e
      | _ => first_rejection rest outs
      end
  end.

Fixpoint fulfilled {A : Type} (outs : list (outcome A)) : list A :=
  match outs with
  | [] => []
  | Ok a :: rest => a :: fulfilled rest
  | Throw _ :: rest => fulfilled rest
  end.

Definition promise_all {A : Type} (order : list nat) (outs : list (outcome A))
  : outcome (list A) :=
  match first_rejection (order ++ seq 0 (length outs)) outs with
  | Some e => Throw e
  | None => Ok (fulfilled outs)
  end.

(* ------------------------------------------------------------------------- *)
(** * The program *)

Section Program.

Variable env : Env.

(** [createSpotifyApi] *)
Definition createSpotifyApi : outcome unit :=
  if negb (truthy (SPOTIFY_CLIENT_ID env)) || negb (truthy (SPOTIFY_CLIENT_SECRET env))
  then Throw (JsError "SPOTIFY_CLIENT_ID and SPOTIFY_CLIENT_SECRET environment variables are required")
  else Ok tt.

(** The [$('*').each(...)] scan of [getSpotifyLinks]: for each element,
    each attribute value that is a non-empty string containing the CDN host
    [p.scdn.co] is added to the [Set]. *)
Definition visitValue (links : list string) (value : string) : list string :=
  if negb (String.eqb value EmptyString) && includes value "p.scdn.co"
  then set_add links value else links.

Definition scan (doc : Document) : list string :=
  fold_left
    (fun links (element : Element) => fold_left visitValue element links)
    doc [].

(** [getSpotifyLinks(url)] *)
Definition getSpotifyLinks (url : string) : outcome (list string) :=
  match fetchDocument env url with
  | Ok doc => Ok (scan doc)
  | Throw e => Throw (JsError ("Failed to fetch preview URLs: " ++ errorMessage e))
  end.

(** The [async (track) => {...}] callback of [tracks.map]. *)
Definition trackToInfo (track : Track) : outcome TrackInfo :=
  let url := t_spotify_url track in
  previewUrls <- getSpotifyLinks url ;;
  Ok {| name := t_name track ++ " - " ++ join ", " (t_artists track);
        spotifyUrl := url;
        previewUrls := previewUrls;
        trackId := t_id track;
        albumName := t_album_name track;
        releaseDate := t_release_date track;
        popularity := t_popularity track;
        durationMs := t_duration_ms track |}.

End Program.

(** Parameter parsing: [(artist, actualLimit)]; [limitArg] is the third
    parameter, [None] when omitted (default 5). *)
Definition parseArgs (artistOrLimit : ArtistOrLimit) (limitArg : option number)
  : option string * number :=
  let limit := match limitArg with Some l => l | None => num 5 end in
  match artistOrLimit with
  | AL_string s => (Some s, limit)
  | AL_number n => (None, n)
  | AL_undefined => (None, num 5)
  end.

(** The double-quote character. *)
Definition dq : string := String (Ascii.ascii_of_nat 34) EmptyString.

(** The query construction: [if (artist) searchQuery = `track:"..." artist:"..."`]. *)
Definition buildSearchQuery (songName : string) (artist : option string) : string :=
  match artist with
  | Some a =>
      if truthy (Some a)
      then "track:" ++ dq ++ songName ++ dq ++ " artist:" ++ dq ++ a ++ dq
      else songName
  | None => songName
  end.

Definition noSongsFound : SearchResult :=
  {| success := false; searchQuery := None; results := []; error := Some "No songs found" |}.

(** The body of the [try] block of [searchAndGetLinks]; [songName] is [None]
    when the argument is not supplied. *)
Definition searchBody (env : Env) (songName : option string)
  (artistOrLimit : ArtistOrLimit) (limitArg : option number) : outcome SearchResult :=
  match songName with
  | None => Throw (JsError "Song name is required")
  | Some song =>
      if negb (truthy songName) then Throw (JsError "Song name is required") else
      let '(artist, actualLimit) := parseArgs artistOrLimit limitArg in
      _ <- createSpotifyApi env ;;
      _ <- clientCredentialsGrant env ;;
      let query := buildSearchQuery song artist in
      tracksField <- searchTracks env query ;;
      match tracksField with
      | None => Ok noSongsFound
      | Some items =>
          if Nat.eqb (length items) 0 then Ok noSongsFound else
          let tracks := slice0 items actualLimit in
          results <- promise_all (settleOrder env) (map (trackToInfo env) tracks) ;;
          Ok {| success := true; searchQuery := Some query; results := results;
                error := None |}
      end
  end.

(** [searchAndGetLinks(songName, artistOrLimit?, limit = 5)]: the [try]
    block and its [catch] handler. *)
Definition searchAndGetLinks (env : Env) (songName : option string)
  (artistOrLimit : ArtistOrLimit) (limitArg : option number) : SearchResult :=
  match searchBody env songName artistOrLimit limitArg with
  | Ok r => r
  | Throw e =>
      {| success := false; searchQuery := None; results := [];
         error := Some (errorMessage e) |}
  end.

(** The query that [searchAndGetLinks] sends to [searchTracks]. *)
Definition resolvedQuery (songName : string) (artistOrLimit : ArtistOrLimit)
  (limitArg : option number) : string :=
  buildSearchQuery songName (fst (parseArgs artistOrLimit limitArg)).

(** The result the [catch] handler builds from a message. *)
Definition failure (msg : string) : SearchResult :=
  {| success := false; searchQuery := None; results := []; error := Some msg |}.

(** The spec's reading of the extractor's deduplication: a value is kept
    exactly at its first occurrence, i.e. when it does not occur among the
    values [before] it in the scan. *)
Fixpoint keepFirst (before : list string) (l : list string) : list string :=
  match l with
  | [] => []
  | x :: rest =>
      (if existsb (String.eqb x) before then [] else [x]) ++ keepFirst (before ++ [x]) rest
  end.

Definition firstOccurrences (l : list string) : list string := keepFirst [] l.

(** The same collaborators, with the extractions settling in the order [o]. *)
Definition withSettleOrder (env : Env) (o : list nat) : Env :=
  {| SPOTIFY_CLIENT_ID := SPOTIFY_CLIENT_ID env;
     SPOTIFY_CLIENT_SECRET := SPOTIFY_CLIENT_SECRET env;
     clientCredentialsGrant := clientCredentialsGrant env;
     searchTracks := searchTracks env;
     fetchDocument := fetchDocument env;
     settleOrder := o |}.

(* ------------------------------------------------------------------------- *)
(** * Sample environment *)

Definition shapeOfYou : Track :=
  {| t_name := "Shape of You"; t_artists := ["Ed Sheeran"];
     t_spotify_url := "https://open.spotify.com/track/abc"; t_id := "abc";
     t_album_name := "Divide"; t_release_date := "2017-03-03";
     t_popularity := 85; t_duration_ms := 233712 |}.

Definition perfect : Track :=
  {| t_name := "Perfect"; t_artists := ["Ed Sheeran"; "Beyonce"];
     t_spotify_url := "https://open.spotify.com/track/def"; t_id := "def";
     t_album_name := "Divide"; t_release_date := "2017-03-03";
     t_popularity := 80; t_duration_ms := 263400 |}.

Definition previewDoc : Document :=
  [["en"]; ["og:audio"; "https://p.scdn.co/mp3-preview/abc"];
   ["https://p.scdn.co/mp3-preview/abc"; "x"]; ["https://p.scdn.co/image/1"]].

(** A stub environment: credentials set, the search returns [items], and the
    page fetch fails for the URLs listed in [failing]. *)
Definition stubEnv (items : option (list Track)) (failing : list string)
  (order : list nat) : Env :=
  {| SPOTIFY_CLIENT_ID := Some "id"; SPOTIFY_CLIENT_SECRET := Some "secret";
     clientCredentialsGrant := Ok "token";
     searchTracks := fun _ => Ok items;
     fetchDocument := fun url =>
       if existsb (String.eqb url) failing
       then Throw (JsError ("Request failed: " ++ url)) else Ok previewDoc;
     settleOrder := order |}.

Example searchAndGetLinks_scenario :
  searchAndGetLinks (stubEnv (Some [shapeOfYou]) [] []) (Some "Shape of You")
    AL_undefined None
  = {| success := true; searchQuery := Some "Shape of You";
       results := [{| name := "Shape of You - Ed Sheeran";
                      spotifyUrl := "https://open.spotify.com/track/abc";
                      previewUrls := ["https://p.scdn.co/mp3-preview/abc";
                                      "https://p.scdn.co/image/1"];
                      trackId := "abc"; albumName := "Divide";
                      releaseDate := "2017-03-03"; popularity := 85;
                      durationMs := 233712 |}];
       error := None |}.
Proof. vm_compute. reflexivity. Qed.

(* ------------------------------------------------------------------------- *)
(** * Lemmas on [Promise.all] *)

Section PromiseAll.

Context {A : Type}.

Lemma first_rejection_app (o1 o2 : list nat) (outs : list (outcome A)) :
  first_rejection (o1 ++ o2) outs =
  match first_rejection o1 outs with
  | Some e => Some e
  | None => first_rejection o2 outs
  end.
Proof.
  induction o1 as [|i o1 IH]; simpl; [reflexivity|].
  destruct (nth_error outs i) as [[a|e]|]; auto.
Qed.

Lemma first_rejection_none (order : list nat) (outs : list (outcome A)) i e :
  first_rejection order outs = None -> In i order ->
  nth_error outs i <> Some (Throw e).
Proof.
  induction order as [|j order IH]; simpl; [tauto|].
  intros Hnone [<-|Hin] Hnth.
  - rewrite Hnth in Hnone. discriminate.
  - destruct (nth_error outs j) as [[a|e']|]; try discriminate;
      exact (IH Hnone Hin Hnth).
Qed.

Lemma first_rejection_some (order : list nat) (outs : list (outcome A)) e :
  first_rejection order outs = Some e ->
  exists j, nth_error outs j = Some (Throw e).
Proof.
  induction order as [|i order IH]; simpl; [discriminate|].
  destruct (nth_error outs i) as [[a|e']|] eqn:Hi; eauto.
  intros H. injection H as <-. eauto.
Qed.

Lemma first_rejection_first (order : list nat) (outs : list (outcome A)) e :
  first_rejection order outs = Some e ->
  exists pre j post,
    order = (pre ++ j :: post)%list /\ nth_error outs j = Some (Throw e) /\
    (forall k e', In k pre -> nth_error outs k <> Some (Throw e')).
Proof.
  induction order as [|i order IH]; simpl; [discriminate|].
  destruct (nth_error outs i) as [[a|e']|] eqn:Hi.
  - intros H. destruct (IH H) as (pre & j & post & -> & Hj & Hpre).
    exists (i :: pre), j, post. split; [reflexivity|]. split; [exact Hj|].
    intros k e0 [<-|Hk]; [rewrite Hi; discriminate|exact (Hpre k e0 Hk)].
  - intros H. injection H as <-. exists [], i, order.
    split; [reflexivity|]. split; [exact Hi|]. intros k e0 [].
  - intros H. destruct (IH H) as (pre & j & post & -> & Hj & Hpre).
    exists (i :: pre), j, post. split; [reflexivity|]. split; [exact Hj|].
    intros k e0 [<-|Hk]; [rewrite Hi; discriminate|exact (Hpre k e0 Hk)].
Qed.

Lemma fulfilled_all_ok (outs : list (outcome A)) :
  (forall i e, nth_error outs i <> Some (Throw e)) ->
  Forall2 (fun o v => o = Ok v) outs (fulfilled outs).
Proof.
  induction outs as [|[a|e] outs IH]; simpl; intros H.
  - constructor.
  - constructor; [reflexivity|]. apply IH. intros i e. exact (H (S i) e).
  - exfalso. exact (H 0 e eq_refl).
Qed.

Lemma promise_all_ok (order : list nat) (outs : list (outcome A)) vs :
  promise_all order outs = Ok vs -> Forall2 (fun o v => o = Ok v) outs vs.
Proof.
  unfold promise_all.
  destruct (first_rejection (order ++ seq 0 (length outs)) outs) eqn:Hr;
    [discriminate|].
  intros H. injection H as <-. apply fulfilled_all_ok.
  intros i e Hnth.
  assert (Hlt : i < length outs).
  { apply nth_error_Some. rewrite Hnth. discriminate. }
  rewrite first_rejection_app in Hr.
  destruct (first_rejection order outs); [discriminate|].
  apply (first_rejection_none _ _ i e Hr); [|exact Hnth].
  apply in_seq. lia.
Qed.

Lemma promise_all_throw (order : list nat) (outs : list (outcome A)) e :
  promise_all order outs = Throw e -> exists j, nth_error outs j = Some (Throw e).
Proof.
  unfold promise_all.
  destruct (first_rejection (order ++ seq 0 (length outs)) outs) eqn:Hr;
    [|discriminate].
  intros H. injection H as <-. eapply first_rejection_some. exact Hr.
Qed.

Lemma promise_all_throw_first (order : list nat) (outs : list (outcome A)) e :
  promise_all order outs = Throw e ->
  exists pre j post,
    (order ++ seq 0 (length outs))%list = (pre ++ j :: post)%list /\
    nth_error outs j = Some (Throw e) /\
    (forall k e', In k pre -> nth_error outs k <> Some (Throw e')).
Proof.
  unfold promise_all.
  destruct (first_rejection (order ++ seq 0 (length outs)) outs) eqn:Hr;
    [|discriminate].
  intros H. injection H as <-. apply first_rejection_first. exact Hr.
Qed.

Lemma promise_all_rejects (order : list nat) (outs : list (outcome A)) i e :
  nth_error outs i = Some (Throw e) ->
  exists e', promise_all order outs = Throw e'.
Proof.
  intros Hi. unfold promise_all.
  destruct (first_rejection (order ++ seq 0 (length outs)) outs) as [e'|] eqn:Hr;
    [eauto|].
  exfalso. apply (first_rejection_none _ _ i e Hr); [|exact Hi].
  apply in_or_app. right. apply in_seq.
  assert (i < length outs) by (apply nth_error_Some; rewrite Hi; discriminate).
  lia.
Qed.

End PromiseAll.

Lemma Forall2_nth_error_l {A B : Type} (R : A -> B -> Prop) l1 l2 i a :
  Forall2 R l1 l2 -> nth_error l1 i = Some a ->
  exists b, nth_error l2 i = Some b /\ R a b.
Proof.
  intros HF. revert i. induction HF as [|x y l1 l2 Hxy HF IH]; intros [|i]; simpl;
    try discriminate.
  - intros H. injection H as <-. eauto.
  - apply IH.
Qed.

Lemma nth_error_map_inv {A B : Type} (f : A -> B) l i b :
  nth_error (map f l) i = Some b -> exists a, nth_error l i = Some a /\ f a = b.
Proof.
  rewrite nth_error_map. destruct (nth_error l i); simpl; [|discriminate].
  intros H. injection H as <-. eauto.
Qed.

(* ------------------------------------------------------------------------- *)
(** * Inversion of [searchAndGetLinks] *)

Lemma searchAndGetLinks_cases env s a l :
  (searchBody env s a l = Ok (searchAndGetLinks env s a l)) \/
  (exists e, searchBody env s a l = Throw e /\
             searchAndGetLinks env s a l = failure (errorMessage e)).
Proof.
  unfold searchAndGetLinks. destruct (searchBody env s a l) as [r|e]; [left|right]; eauto.
Qed.

Lemma searchBody_ok_shape env s a l r :
  searchBody env s a l = Ok r ->
  r = noSongsFound \/ (success r = true /\ error r = None).
Proof.
  unfold searchBody. destruct s as [song|]; [|discriminate].
  destruct (negb (truthy (Some song))); [discriminate|].
  destruct (parseArgs a l) as [artist lim].
  destruct (createSpotifyApi env) as [[]|e]; simpl; [|discriminate].
  destruct (clientCredentialsGrant env) as [tok|e]; simpl; [|discriminate].
  destruct (searchTracks env _) as [[items|]|e]; simpl; try discriminate.
  - destruct (Nat.eqb (length items) 0).
    + intros H. injection H as <-. auto.
    + destruct (promise_all _ _) as [vs|e]; simpl; [|discriminate].
      intros H. injection H as <-. auto.
  - intros H. injection H as <-. auto.
Qed.

Lemma searchAndGetLinks_success_inv env s a l :
  success (searchAndGetLinks env s a l) = true ->
  exists song items,
    s = Some song /\ song <> EmptyString /\
    createSpotifyApi env = Ok tt /\
    searchTracks env (resolvedQuery song a l) = Ok (Some items) /\ items <> [] /\
    promise_all (settleOrder env)
      (map (trackToInfo env) (slice0 items (snd (parseArgs a l))))
      = Ok (results (searchAndGetLinks env s a l)) /\
    searchQuery (searchAndGetLinks env s a l) = Some (resolvedQuery song a l).
Proof.
  unfold searchAndGetLinks, resolvedQuery.
  destruct (searchBody env s a l) as [r|e] eqn:Hb; simpl; [|discriminate].
  intros Hsucc. revert Hb. unfold searchBody.
  destruct s as [song|]; [|discriminate].
  destruct (negb (truthy (Some song))) eqn:Ht; [discriminate|].
  destruct (parseArgs a l) as [artist lim]; simpl.
  destruct (createSpotifyApi env) as [[]|e] eqn:Hc; simpl; [|discriminate].
  destruct (clientCredentialsGrant env) as [tok|e]; simpl; [|discriminate].
  destruct (searchTracks env _) as [[items|]|e] eqn:Hs; simpl; try discriminate.
  - destruct (Nat.eqb (length items) 0) eqn:Hlen.
    + intros H. injection H as <-. discriminate.
    + destruct (promise_all _ _) as [vs|e] eqn:Hp; simpl; [|discriminate].
      intros H. injection H as <-. simpl.
      exists song, items. repeat split; auto.
      * intros ->. simpl in Ht. discriminate.
      * intros ->. discriminate.
  - intros H. injection H as <-. discriminate.
Qed.

Lemma searchAndGetLinks_failure_shape env s a l :
  success (searchAndGetLinks env s a l) = false ->
  results (searchAndGetLinks env s a l) = [] /\
  exists msg, error (searchAndGetLinks env s a l) = Some msg.
Proof.
  intros Hf. destruct (searchAndGetLinks_cases env s a l) as [Hok|[e [_ Hr]]].
  - destruct (searchBody_ok_shape _ _ _ _ _ Hok) as [->|[Hs _]].
    + simpl. eauto.
    + congruence.
  - rewrite Hr. simpl. eauto.
Qed.

Lemma truthy_nonempty (song : string) :
  song <> EmptyString -> truthy (Some song) = true.
Proof. destruct song; [congruence|reflexivity]. Qed.

Lemma prefix_app (s t : string) : String.prefix s (s ++ t) = true.
Proof.
  induction s as [|c s IH]; simpl; [destruct t; reflexivity|].
  destruct (Ascii.ascii_dec c c); [exact IH|congruence].
Qed.

Lemma string_app_assoc (s t u : string) : (s ++ t) ++ u = s ++ t ++ u.
Proof. induction s as [|c s IH]; simpl; [reflexivity|]. rewrite IH. reflexivity. Qed.

Lemma includes_app_l (pre s sub : string) :
  includes s sub = true -> includes (pre ++ s) sub = true.
Proof.
  induction pre as [|c pre IH]; simpl; [tauto|].
  intros H. rewrite (IH H). apply orb_true_r.
Qed.

Lemma includes_equation (s sub : string) :
  includes s sub =
  String.prefix sub s ||
  match s with EmptyString => false | String _ s' => includes s' sub end.
Proof. destruct s; reflexivity. Qed.

Lemma includes_here (sub t : string) : includes (sub ++ t) sub = true.
Proof.
  pose proof (prefix_app sub t) as H.
  rewrite includes_equation, H. reflexivity.
Qed.

(* ------------------------------------------------------------------------- *)
(** * The claims *)

(** C1: [searchAndGetLinks] always resolves to a [SearchResult]: either the
    [try] body returns it, or the body throws and the [catch] handler turns
    the exception into [success = false], [results = []] and [error] the
    exception's message ("Unknown error" for a thrown non-[Error]). Every
    failed result has [results = []] and an [error] set. *)
Theorem searchAndGetLinks_never_throws env s a l :
  let r := searchAndGetLinks env s a l in
  (searchBody env s a l = Ok r \/
   exists e, searchBody env s a l = Throw e /\
     r = {| success := false; searchQuery := None; results := [];
            error := Some (errorMessage e) |}) /\
  (success r = false -> results r = [] /\ exists msg, error r = Some msg).
Proof.
  simpl. split; [apply searchAndGetLinks_cases|].
  apply searchAndGetLinks_failure_shape.
Qed.

(** C3 (counterexample): with the empty string as second argument, the
    query is not artist-qualified: it holds no [track:] followed by a
    double quote. *)
Lemma resolvedQuery_empty_artist_unqualified :
  resolvedQuery "Shape of You" (AL_string EmptyString) None = "Shape of You" /\
  includes (resolvedQuery "Shape of You" (AL_string EmptyString) None)
    ("track:" ++ dq) = false.
Proof. split; vm_compute; reflexivity. Qed.

(** C3 (amended): when the second argument is a non-empty string, the
    query is the field-qualified [track:<songName> artist:<artist>] with
    both values in double quotes, verbatim, so it contains [track:] and
    [artist:] each followed by a double quote; when it is not a string or is the empty
    string, the query is the song name unmodified. A successful result
    reports that query. *)
Theorem resolvedQuery_artist_qualified song a l :
  (forall artist, a = AL_string artist -> artist <> EmptyString ->
     resolvedQuery song a l =
       "track:" ++ dq ++ song ++ dq ++ " artist:" ++ dq ++ artist ++ dq /\
     includes (resolvedQuery song a l) ("track:" ++ dq) = true /\
     includes (resolvedQuery song a l) ("artist:" ++ dq) = true) /\
  ((forall artist, a = AL_string artist -> artist = EmptyString) ->
     resolvedQuery song a l = song) /\
  (forall env, success (searchAndGetLinks env (Some song) a l) = true ->
     searchQuery (searchAndGetLinks env (Some song) a l) =
       Some (resolvedQuery song a l)).
Proof.
  split; [|split].
  - intros artist -> Hne.
    assert (Hq : resolvedQuery song (AL_string artist) l =
      "track:" ++ dq ++ song ++ dq ++ " artist:" ++ dq ++ artist ++ dq).
    { unfold resolvedQuery, buildSearchQuery, parseArgs, fst.
      rewrite (truthy_nonempty _ Hne). reflexivity. }
    rewrite Hq. split; [reflexivity|split].
    + rewrite <- (string_app_assoc "track:" dq). apply includes_here.
    + apply (includes_app_l "track:"), (includes_app_l dq),
        (includes_app_l song), (includes_app_l dq).
      change (includes (" " ++ ("artist:" ++ dq ++ artist ++ dq)) ("artist:" ++ dq) = true).
      apply includes_app_l.
      rewrite <- (string_app_assoc "artist:" dq). apply includes_here.
  - intros H. unfold resolvedQuery, buildSearchQuery.
    destruct a as [artist| |]; simpl; [|reflexivity|reflexivity].
    rewrite (H artist eq_refl). reflexivity.
  - intros env Hs.
    destruct (searchAndGetLinks_success_inv _ _ _ _ Hs)
      as (song' & items & Heq & _ & _ & _ & _ & _ & Hq).
    injection Heq as <-. exact Hq.
Qed.

(** C8: once the credentials are set, the grant succeeded and the catalog
    search reports zero matches ([tracks] absent or its [items] empty), the
    [try] body itself returns [{success: false, error: "No songs found",
    results: []}]: nothing is thrown on this branch. *)
Theorem searchAndGetLinks_no_songs env song a l :
  song <> EmptyString ->
  createSpotifyApi env = Ok tt ->
  (exists token, clientCredentialsGrant env = Ok token) ->
  (searchTracks env (resolvedQuery song a l) = Ok None \/
   searchTracks env (resolvedQuery song a l) = Ok (Some [])) ->
  searchBody env (Some song) a l = Ok noSongsFound /\
  searchAndGetLinks env (Some song) a l =
    {| success := false; searchQuery := None; results := [];
       error := Some "No songs found" |}.
Proof.
  intros Hne Hc [tok Hg] Hs.
  assert (Hb : searchBody env (Some song) a l = Ok noSongsFound).
  { unfold searchBody. rewrite (truthy_nonempty _ Hne). simpl negb. cbv iota.
    unfold resolvedQuery in Hs.
    destruct (parseArgs a l) as [artist lim]. simpl in Hs.
    rewrite Hc. simpl. rewrite Hg. simpl.
    destruct Hs as [Hs|Hs]; rewrite Hs; reflexivity. }
  split; [exact Hb|]. unfold searchAndGetLinks. rewrite Hb. reflexivity.
Qed.

Lemma searchAndGetLinks_no_songs_witness :
  "Shape of You" <> EmptyString /\
  createSpotifyApi (stubEnv (Some []) [] []) = Ok tt /\
  (exists token, clientCredentialsGrant (stubEnv (Some []) [] []) = Ok token) /\
  (searchTracks (stubEnv (Some []) [] []) (resolvedQuery "Shape of You" AL_undefined None) = Ok None \/
   searchTracks (stubEnv (Some []) [] []) (resolvedQuery "Shape of You" AL_undefined None) = Ok (Some [])) /\
  searchBody (stubEnv (Some []) [] []) (Some "Shape of You") AL_undefined None = Ok noSongsFound /\
  searchAndGetLinks (stubEnv (Some []) [] []) (Some "Shape of You") AL_undefined None =
    {| success := false; searchQuery := None; results := [];
       error := Some "No songs found" |}.
Proof.
  assert (H1 : "Shape of You" <> EmptyString) by discriminate.
  assert (H2 : createSpotifyApi (stubEnv (Some []) [] []) = Ok tt) by reflexivity.
  assert (H3 : exists token, clientCredentialsGrant (stubEnv (Some []) [] []) = Ok token)
    by (exists "token"; reflexivity).
  assert (H4 : searchTracks (stubEnv (Some []) [] []) (resolvedQuery "Shape of You" AL_undefined None) = Ok None \/
   searchTracks (stubEnv (Some []) [] []) (resolvedQuery "Shape of You" AL_undefined None) = Ok (Some []))
    by (right; reflexivity).
  destruct (searchAndGetLinks_no_songs (stubEnv (Some []) [] []) "Shape of You"
              AL_undefined None H1 H2 H3 H4) as [H5 H6].
  exact (conj H1 (conj H2 (conj H3 (conj H4 (conj H5 H6))))).
Defined.

(** C9: an empty or unsupplied song name yields exactly
    [{success: false, error: "Song name is required", results: []}],
    whatever the other arguments and the environment. *)
Theorem searchAndGetLinks_song_required env s a l :
  (s = None \/ s = Some EmptyString) ->
  searchAndGetLinks env s a l =
    {| success := false; searchQuery := None; results := [];
       error := Some "Song name is required" |}.
Proof. intros [-> | ->]; reflexivity. Qed.

Lemma searchAndGetLinks_song_required_witness :
  ((None : option string) = None \/ (None : option string) = Some EmptyString) /\
  searchAndGetLinks (stubEnv (Some [shapeOfYou]) [] []) None (AL_string "Ed Sheeran") (Some (num 2)) =
    {| success := false; searchQuery := None; results := [];
       error := Some "Song name is required" |}.
Proof.
  assert (H : (None : option string) = None \/ (None : option string) = Some EmptyString)
    by (left; reflexivity).
  split; [exact H|].
  exact (searchAndGetLinks_song_required (stubEnv (Some [shapeOfYou]) [] []) None
           (AL_string "Ed Sheeran") (Some (num 2)) H).
Defined.

(** C10: the empty string as second argument takes the string branch, so
    the effective limit is the third argument (5 when omitted), but the
    query is the raw song name, since the artist is tested for truthiness;
    a successful result reports that raw song name as its query. *)
Theorem empty_artist_string_branch song l :
  parseArgs (AL_string EmptyString) l =
    (Some EmptyString, match l with Some n => n | None => num 5 end) /\
  resolvedQuery song (AL_string EmptyString) l = song /\
  (forall env, success (searchAndGetLinks env (Some song) (AL_string EmptyString) l) = true ->
     searchQuery (searchAndGetLinks env (Some song) (AL_string EmptyString) l) = Some song).
Proof.
  split; [reflexivity|]. split; [reflexivity|].
  intros env Hs.
  destruct (searchAndGetLinks_success_inv _ _ _ _ Hs)
    as (song' & items & Heq & _ & _ & _ & _ & _ & Hq).
  injection Heq as <-. exact Hq.
Qed.

(* ------------------------------------------------------------------------- *)
(** * Helpers for the retained candidates *)

Lemma searchBody_reaches env song a l items :
  song <> EmptyString ->
  createSpotifyApi env = Ok tt ->
  (exists token, clientCredentialsGrant env = Ok token) ->
  searchTracks env (resolvedQuery song a l) = Ok (Some items) -> items <> [] ->
  searchBody env (Some song) a l =
    (results <- promise_all (settleOrder env)
                  (map (trackToInfo env) (slice0 items (snd (parseArgs a l)))) ;;
     Ok {| success := true; searchQuery := Some (resolvedQuery song a l);
           results := results; error := None |}).
Proof.
  intros Hne Hc [tok Hg] Hs Hitems.
  unfold searchBody. rewrite (truthy_nonempty _ Hne). simpl negb. cbv iota.
  unfold resolvedQuery in *.
  destruct (parseArgs a l) as [artist lim]. simpl in *.
  rewrite Hc. simpl. rewrite Hg. simpl. rewrite Hs. simpl.
  destruct items as [|x xs]; [congruence|]. reflexivity.
Qed.

Lemma sliceEnd_bounds (len : nat) L :
  (0 <= sliceEnd len L <= Z.of_nat len)%Z.
Proof.
  unfold sliceEnd. destruct (toIntegerOrInfinity L) as [z| |]; [|lia|lia].
  destruct (Z.ltb_spec z 0); lia.
Qed.

Lemma slice0_length {A : Type} (items : list A) L :
  length (slice0 items L) = Z.to_nat (sliceEnd (length items) L).
Proof.
  unfold slice0. rewrite length_firstn.
  pose proof (sliceEnd_bounds (length items) L). lia.
Qed.

Lemma slice0_full {A : Type} (items : list A) L :
  (toIntegerOrInfinity L = IntPosInf \/
   exists z, toIntegerOrInfinity L = IntFin z /\ (Z.of_nat (length items) <= z)%Z) ->
  slice0 items L = items.
Proof.
  intros H. unfold slice0, sliceEnd.
  destruct H as [->|(z & -> & Hz)].
  - rewrite Nat2Z.id. apply firstn_all.
  - destruct (Z.ltb_spec z 0); [lia|].
    rewrite Z.min_r by lia. rewrite Nat2Z.id. apply firstn_all.
Qed.

Lemma slice0_zero {A : Type} (items : list A) L :
  toIntegerOrInfinity L = IntFin 0 -> slice0 items L = [].
Proof.
  intros H. unfold slice0, sliceEnd. rewrite H. simpl. rewrite Z.min_l by lia. reflexivity.
Qed.

Lemma slice0_neginf {A : Type} (items : list A) L :
  toIntegerOrInfinity L = IntNegInf -> slice0 items L = [].
Proof. intros H. unfold slice0, sliceEnd. rewrite H. reflexivity. Qed.

Lemma slice0_negative {A : Type} (items : list A) L z :
  toIntegerOrInfinity L = IntFin z -> (z < 0)%Z ->
  slice0 items L = firstn (Z.to_nat (Z.of_nat (length items) + z)) items.
Proof.
  intros HL H. unfold slice0, sliceEnd. rewrite HL. destruct (Z.ltb_spec z 0); [|lia].
  destruct (Z.le_ge_cases (Z.of_nat (length items) + z) 0).
  - rewrite Z.max_r by lia. replace (Z.to_nat (Z.of_nat (length items) + z)) with 0%nat
      by lia. reflexivity.
  - rewrite Z.max_l by lia. reflexivity.
Qed.

(** Truncation toward zero of a non-negative finite number. *)
Lemma trunc_nonneg q z :
  (0 <= q)%Q -> toIntegerOrInfinity (Finite q) = IntFin z ->
  (0 <= z)%Z /\ (inject_Z z <= q)%Q.
Proof.
  destruct q as [n d]. unfold Qle. simpl. intros Hq Heq. injection Heq as <-.
  rewrite Z.quot_div_nonneg by lia.
  pose proof (Z.mul_div_le n (Zpos d) eq_refl) as Hm.
  split; [apply Z.div_pos; lia|]. nia.
Qed.

Lemma trunc_ge_one q :
  (1 <= q)%Q -> exists z, toIntegerOrInfinity (Finite q) = IntFin z /\ (1 <= z)%Z.
Proof.
  destruct q as [n d]. unfold Qle. simpl. intros Hq.
  eexists. split; [reflexivity|].
  rewrite Z.quot_div_nonneg by lia.
  apply Z.div_le_lower_bound; lia.
Qed.

Lemma success_results_length env s a l :
  success (searchAndGetLinks env s a l) = true ->
  exists song items,
    s = Some song /\
    searchTracks env (resolvedQuery song a l) = Ok (Some items) /\ items <> [] /\
    Forall2 (fun o v => o = Ok v)
      (map (trackToInfo env) (slice0 items (snd (parseArgs a l))))
      (results (searchAndGetLinks env s a l)) /\
    length (results (searchAndGetLinks env s a l)) =
      length (slice0 items (snd (parseArgs a l))).
Proof.
  intros Hs.
  destruct (searchAndGetLinks_success_inv _ _ _ _ Hs)
    as (song & items & Heq & _ & _ & Hsearch & Hne & Hp & _).
  exists song, items. apply promise_all_ok in Hp.
  repeat split; auto.
  apply Forall2_length in Hp. rewrite length_map in Hp. auto.
Qed.

(** C2 (counterexample): with the limit -1 and two catalog matches, the
    retained sequence is not empty: [slice(0, -1)] keeps the first match,
    and the one result exceeds the limit. *)
Lemma negative_limit_keeps_results :
  let r := searchAndGetLinks (stubEnv (Some [shapeOfYou; perfect]) [] [])
             (Some "Shape of You") (AL_number (num (-1))) None in
  success r = true /\ length (results r) = 1%nat.
Proof. vm_compute. split; reflexivity. Qed.

(** C2 (amended): on a successful call with catalog items [items] and
    effective limit [L] (a JavaScript number), the results are as many as
    the retained candidates [items.slice(0, L)], where [slice] first maps
    [L] to an integer [T] (NaN to 0, a finite value truncated toward
    zero): none when [T = 0] or [L] is minus infinity, all items when [L]
    is plus infinity or [T] is at least their number, the first [len + T]
    (none if that is not positive) when [T] is negative; so never more
    than the catalog matches, and never more than [L] when [L] is a
    non-negative number. *)
Theorem searchAndGetLinks_result_count env s a l :
  success (searchAndGetLinks env s a l) = true ->
  exists song items,
    s = Some song /\
    searchTracks env (resolvedQuery song a l) = Ok (Some items) /\ items <> [] /\
    let L := snd (parseArgs a l) in
    let n := length (results (searchAndGetLinks env s a l)) in
    n = length (slice0 items L) /\
    (toIntegerOrInfinity L = IntFin 0 -> slice0 items L = []) /\
    (toIntegerOrInfinity L = IntNegInf -> slice0 items L = []) /\
    ((toIntegerOrInfinity L = IntPosInf \/
      exists z, toIntegerOrInfinity L = IntFin z /\ (Z.of_nat (length items) <= z)%Z) ->
     slice0 items L = items) /\
    (forall z, toIntegerOrInfinity L = IntFin z -> (z < 0)%Z ->
       slice0 items L = firstn (Z.to_nat (Z.of_nat (length items) + z)) items) /\
    (n <= length items)%nat /\
    (forall q, L = Finite q -> (0 <= q)%Q -> (inject_Z (Z.of_nat n) <= q)%Q).
Proof.
  intros Hs.
  destruct (success_results_length _ _ _ _ Hs)
    as (song & items & Heq & Hsearch & Hne & _ & Hlen).
  exists song, items. split; [exact Heq|]. split; [exact Hsearch|].
  split; [exact Hne|]. cbv zeta.
  rewrite Hlen, slice0_length.
  pose proof (sliceEnd_bounds (length items) (snd (parseArgs a l))) as Hb.
  repeat split.
  - apply slice0_zero.
  - apply slice0_neginf.
  - apply slice0_full.
  - intros z. apply slice0_negative.
  - lia.
  - intros q HL Hq. rewrite HL.
    destruct (trunc_nonneg q _ Hq eq_refl) as [Hz Hle].
    apply Qle_trans with (inject_Z (Z.quot (Qnum q) (Zpos (Qden q)))); [|exact Hle].
    rewrite <- Zle_Qle. unfold sliceEnd. cbn [toIntegerOrInfinity].
    destruct (Z.ltb_spec (Z.quot (Qnum q) (Zpos (Qden q))) 0); lia.
Qed.

Lemma searchAndGetLinks_result_count_witness :
  success (searchAndGetLinks (stubEnv (Some [shapeOfYou; perfect]) [] [])
             (Some "Shape of You") (AL_string "Ed Sheeran") (Some (num 1))) = true /\
  exists song items,
    Some "Shape of You" = Some song /\
    searchTracks (stubEnv (Some [shapeOfYou; perfect]) [] [])
      (resolvedQuery song (AL_string "Ed Sheeran") (Some (num 1))) = Ok (Some items) /\
    items <> [] /\
    let L := snd (parseArgs (AL_string "Ed Sheeran") (Some (num 1))) in
    let n := length (results (searchAndGetLinks (stubEnv (Some [shapeOfYou; perfect]) [] [])
             (Some "Shape of You") (AL_string "Ed Sheeran") (Some (num 1)))) in
    n = length (slice0 items L) /\
    (toIntegerOrInfinity L = IntFin 0 -> slice0 items L = []) /\
    (toIntegerOrInfinity L = IntNegInf -> slice0 items L = []) /\
    ((toIntegerOrInfinity L = IntPosInf \/
      exists z, toIntegerOrInfinity L = IntFin z /\ (Z.of_nat (length items) <= z)%Z) ->
     slice0 items L = items) /\
    (forall z, toIntegerOrInfinity L = IntFin z -> (z < 0)%Z ->
       slice0 items L = firstn (Z.to_nat (Z.of_nat (length items) + z)) items) /\
    (n <= length items)%nat /\
    (forall q, L = Finite q -> (0 <= q)%Q -> (inject_Z (Z.of_nat n) <= q)%Q).
Proof.
  assert (H : success (searchAndGetLinks (stubEnv (Some [shapeOfYou; perfect]) [] [])
             (Some "Shape of You") (AL_string "Ed Sheeran") (Some (num 1))) = true)
    by (vm_compute; reflexivity).
  split; [exact H|]. exact (searchAndGetLinks_result_count _ _ _ _ H).
Defined.

(** C4 (counterexample): with the limit 0 and one catalog match, the call
    succeeds with an empty [results]. *)
Lemma zero_limit_success_without_results :
  searchAndGetLinks (stubEnv (Some [shapeOfYou]) [] []) (Some "Shape of You")
    (AL_number (num 0)) None
  = {| success := true; searchQuery := Some "Shape of You"; results := [];
       error := None |}.
Proof. vm_compute. reflexivity. Qed.

(** C4 (amended): every result is either a success ([success = true],
    [error] absent, [results] empty only when the effective limit is NaN,
    minus infinity or a finite number below 1, since [slice] truncates it)
    or a failure ([success = false], [error] set, [results = []]). *)
Theorem searchAndGetLinks_result_shape env s a l :
  let r := searchAndGetLinks env s a l in
  (success r = true /\ error r = None /\
   (results r = [] ->
    match snd (parseArgs a l) with
    | Finite q => (q < 1)%Q
    | PosInfinity => False
    | NaN | NegInfinity => True
    end)) \/
  (success r = false /\ (exists msg, error r = Some msg) /\ results r = []).
Proof.
  simpl.
  destruct (success (searchAndGetLinks env s a l)) eqn:Hs.
  - left. split; [reflexivity|].
    destruct (searchAndGetLinks_cases env s a l) as [Hok|[e [_ Hr]]];
      [|rewrite Hr in Hs; discriminate].
    destruct (searchBody_ok_shape _ _ _ _ _ Hok) as [Hn|[_ He]];
      [rewrite Hn in Hs; discriminate|].
    split; [exact He|].
    intros Hnil.
    destruct (success_results_length _ _ _ _ Hs)
      as (song & items & _ & _ & Hne & _ & Hlen).
    rewrite Hnil, slice0_length in Hlen. simpl in Hlen.
    destruct items as [|x xs]; [congruence|].
    destruct (snd (parseArgs a l)) as [| | |q]; [exact I| |exact I|].
    + unfold sliceEnd in Hlen. simpl in Hlen. lia.
    + destruct (Qlt_le_dec q 1) as [Hq|Hq]; [exact Hq|exfalso].
      destruct (trunc_ge_one q Hq) as (z & Hz & Hz1).
      unfold sliceEnd in Hlen. cbv zeta in Hlen. rewrite Hz in Hlen.
      simpl length in Hlen. destruct (Z.ltb_spec z 0); lia.
  - right. split; [reflexivity|].
    destruct (searchAndGetLinks_failure_shape env s a l Hs) as [H1 H2]. auto.
Qed.

(** C5 (counterexample): both candidates' extractions fail and the second
    one rejects first; the call reports the second extraction's message,
    not the first's. *)
Lemma two_failures_first_rejection_wins :
  let env := stubEnv (Some [shapeOfYou; perfect])
               [t_spotify_url shapeOfYou; t_spotify_url perfect] [1%nat] in
  let r := searchAndGetLinks env (Some "Shape of You") AL_undefined None in
  getSpotifyLinks env (t_spotify_url shapeOfYou) =
    Throw (JsError ("Failed to fetch preview URLs: Request failed: " ++ t_spotify_url shapeOfYou)) /\
  error r = Some ("Failed to fetch preview URLs: Request failed: " ++ t_spotify_url perfect) /\
  error r <> Some ("Failed to fetch preview URLs: Request failed: " ++ t_spotify_url shapeOfYou).
Proof. vm_compute. split; [reflexivity|]. split; [reflexivity|]. discriminate. Qed.

Lemma trackToInfo_throw env t e :
  trackToInfo env t = Throw e ->
  exists e0, fetchDocument env (t_spotify_url t) = Throw e0 /\
             e = JsError ("Failed to fetch preview URLs: " ++ errorMessage e0).
Proof.
  unfold trackToInfo, getSpotifyLinks.
  destruct (fetchDocument env (t_spotify_url t)) as [d|e0]; simpl; [discriminate|].
  intros H. injection H as <-. eauto.
Qed.

(** C5 (amended): if the extraction of some retained candidate [i] fails,
    the call resolves to [success = false], [results = []], and [error] the
    message of the extraction [Promise.all] rejects with: the candidate [j]
    whose failure comes first in the order the extractions settle (every
    candidate settling before it succeeded), the message being
    "Failed to fetch preview URLs: " followed by the underlying error's
    message, or "Unknown error" when it has none. When [i] is the only
    failing candidate, that message is [i]'s. *)
Theorem searchAndGetLinks_extraction_failure env song a l items i t e :
  song <> EmptyString ->
  createSpotifyApi env = Ok tt ->
  (exists token, clientCredentialsGrant env = Ok token) ->
  searchTracks env (resolvedQuery song a l) = Ok (Some items) -> items <> [] ->
  nth_error (slice0 items (snd (parseArgs a l))) i = Some t ->
  fetchDocument env (t_spotify_url t) = Throw e ->
  exists j t' e' pre post,
    nth_error (slice0 items (snd (parseArgs a l))) j = Some t' /\
    fetchDocument env (t_spotify_url t') = Throw e' /\
    (settleOrder env ++ seq 0 (length (slice0 items (snd (parseArgs a l)))))%list = (pre ++ j :: post)%list /\
    (forall k tk, In k pre -> nth_error (slice0 items (snd (parseArgs a l))) k = Some tk ->
       exists doc, fetchDocument env (t_spotify_url tk) = Ok doc) /\
    searchAndGetLinks env (Some song) a l =
      {| success := false; searchQuery := None; results := [];
         error := Some ("Failed to fetch preview URLs: " ++ errorMessage e') |} /\
    ((forall k tk, nth_error (slice0 items (snd (parseArgs a l))) k = Some tk ->
        k <> i -> exists doc, fetchDocument env (t_spotify_url tk) = Ok doc) ->
     j = i /\ t' = t /\ e' = e).
Proof.
  intros Hne Hc Hg Hs Hitems Hi Hf.
  set (retained := slice0 items (snd (parseArgs a l))) in *.
  assert (Hout : nth_error (map (trackToInfo env) retained) i =
                 Some (Throw (JsError ("Failed to fetch preview URLs: " ++ errorMessage e)))).
  { rewrite nth_error_map, Hi. simpl. unfold trackToInfo, getSpotifyLinks.
    rewrite Hf. reflexivity. }
  destruct (promise_all_rejects (settleOrder env) _ _ _ Hout) as [e0 Hp].
  destruct (promise_all_throw_first _ _ _ Hp) as (pre & j & post & Hord & Hj & Hpre).
  rewrite length_map in Hord.
  destruct (nth_error_map_inv _ _ _ _ Hj) as (t' & Ht' & Htt').
  destruct (trackToInfo_throw _ _ _ Htt') as (e' & Hf' & ->).
  exists j, t', e', pre, post.
  split; [exact Ht'|]. split; [exact Hf'|]. split; [exact Hord|]. split.
  - intros k tk Hk Htk.
    destruct (fetchDocument env (t_spotify_url tk)) as [doc|ek] eqn:Hd; [eauto|].
    exfalso. apply (Hpre k (JsError ("Failed to fetch preview URLs: " ++ errorMessage ek)) Hk).
    rewrite nth_error_map, Htk. simpl. unfold trackToInfo, getSpotifyLinks.
    rewrite Hd. reflexivity.
  - split.
    + unfold searchAndGetLinks.
      rewrite (searchBody_reaches env song a l items Hne Hc Hg Hs Hitems).
      fold retained. rewrite Hp. reflexivity.
    + intros Honly.
      destruct (Nat.eq_dec j i) as [->|Hji].
      * rewrite Hi in Ht'. injection Ht' as <-. rewrite Hf in Hf'.
        injection Hf' as <-. auto.
      * destruct (Honly j t' Ht' Hji) as [d Hd]. congruence.
Qed.

Lemma searchAndGetLinks_extraction_failure_witness :
  exists j t' e' pre post,
    nth_error (slice0 [shapeOfYou; perfect] (snd (parseArgs AL_undefined None))) j = Some t' /\
    fetchDocument (stubEnv (Some [shapeOfYou; perfect]) [t_spotify_url shapeOfYou] []) (t_spotify_url t') = Throw e' /\
    (settleOrder (stubEnv (Some [shapeOfYou; perfect]) [t_spotify_url shapeOfYou] []) ++ seq 0 (length (slice0 [shapeOfYou; perfect] (snd (parseArgs AL_undefined None)))))%list = (pre ++ j :: post)%list /\
    (forall k tk, In k pre -> nth_error (slice0 [shapeOfYou; perfect] (snd (parseArgs AL_undefined None))) k = Some tk ->
       exists doc, fetchDocument (stubEnv (Some [shapeOfYou; perfect]) [t_spotify_url shapeOfYou] []) (t_spotify_url tk) = Ok doc) /\
    searchAndGetLinks (stubEnv (Some [shapeOfYou; perfect]) [t_spotify_url shapeOfYou] []) (Some "Shape of You") AL_undefined None =
      {| success := false; searchQuery := None; results := [];
         error := Some ("Failed to fetch preview URLs: " ++ errorMessage e') |} /\
    ((forall k tk, nth_error (slice0 [shapeOfYou; perfect] (snd (parseArgs AL_undefined None))) k = Some tk ->
        k <> 0%nat -> exists doc, fetchDocument (stubEnv (Some [shapeOfYou; perfect]) [t_spotify_url shapeOfYou] []) (t_spotify_url tk) = Ok doc) ->
     j = 0%nat /\ t' = shapeOfYou /\ e' = JsError ("Request failed: " ++ t_spotify_url shapeOfYou)).
Proof.
  apply (searchAndGetLinks_extraction_failure
           (stubEnv (Some [shapeOfYou; perfect]) [t_spotify_url shapeOfYou] [])
           "Shape of You" AL_undefined None [shapeOfYou; perfect] 0 shapeOfYou
           (JsError ("Request failed: " ++ t_spotify_url shapeOfYou))).
  - discriminate.
  - reflexivity.
  - exists "token". reflexivity.
  - reflexivity.
  - discriminate.
  - reflexivity.
  - vm_compute. reflexivity.
Defined.

(* ------------------------------------------------------------------------- *)
(** * The preview extractor *)

Lemma existsb_eqb_In (x : string) l : existsb (String.eqb x) l = true <-> In x l.
Proof.
  rewrite existsb_exists. split.
  - intros (y & Hy & Heq). apply String.eqb_eq in Heq. subst. exact Hy.
  - intros H. exists x. split; [exact H|]. apply String.eqb_refl.
Qed.

Lemma existsb_eqb_equiv (x : string) l1 l2 :
  (forall y, In y l1 <-> In y l2) ->
  existsb (String.eqb x) l1 = existsb (String.eqb x) l2.
Proof.
  intros H. destruct (existsb (String.eqb x) l2) eqn:H2.
  - apply existsb_eqb_In. apply H. apply existsb_eqb_In. exact H2.
  - destruct (existsb (String.eqb x) l1) eqn:H1; [|reflexivity].
    apply existsb_eqb_In, H, existsb_eqb_In in H1. congruence.
Qed.

Lemma visit_condition (v : string) :
  negb (String.eqb v EmptyString) && includes v "p.scdn.co" = includes v "p.scdn.co".
Proof. destruct v; reflexivity. Qed.

Lemma scan_concat (doc : Document) acc :
  fold_left (fun links (element : Element) => fold_left visitValue element links) doc acc =
  fold_left visitValue (concat doc) acc.
Proof.
  revert acc. induction doc as [|el doc IH]; intros acc; simpl; [reflexivity|].
  rewrite fold_left_app. apply IH.
Qed.

Lemma visit_fold (l acc before : list string) :
  (forall y, In y acc <-> In y before) ->
  fold_left visitValue l acc =
  (acc ++ keepFirst before (filter (fun v => includes v "p.scdn.co") l))%list.
Proof.
  revert acc before. induction l as [|x t IH]; intros acc before Heq; simpl.
  - rewrite app_nil_r. reflexivity.
  - unfold visitValue at 2. rewrite visit_condition.
    destruct (includes x "p.scdn.co") eqn:Hm; simpl.
    + unfold set_add. rewrite (existsb_eqb_equiv x acc before Heq).
      destruct (existsb (String.eqb x) before) eqn:Hb; simpl.
      * apply IH. intros y. rewrite Heq, in_app_iff. simpl.
        apply existsb_eqb_In in Hb. split; [tauto|].
        intros [H|[<-|[]]]; assumption.
      * rewrite (IH (acc ++ [x])%list (before ++ [x])%list), <- app_assoc; [reflexivity|].
        intros y. rewrite !in_app_iff, Heq. reflexivity.
    + apply IH. exact Heq.
Qed.

Lemma keepFirst_In (before l : list string) x :
  In x (keepFirst before l) <-> In x l /\ ~ In x before.
Proof.
  revert before. induction l as [|y t IH]; intros before; simpl; [tauto|].
  rewrite in_app_iff, IH, in_app_iff. simpl.
  destruct (existsb (String.eqb y) before) eqn:Hb; simpl.
  - apply existsb_eqb_In in Hb. split.
    + intros [[]|[Ht Hn]]. split; [right; exact Ht|tauto].
    + intros [[<-|Ht] Hn]; [contradiction|]. right. split; [exact Ht|].
      intros [H|[<-|[]]]; contradiction.
  - assert (Hy : ~ In y before).
    { intros H. apply existsb_eqb_In in H. congruence. }
    split.
    + intros [[<-|[]]|[Ht Hn]]; [tauto|]. split; [right; exact Ht|tauto].
    + intros [[<-|Ht] Hn]; [left; left; reflexivity|].
      destruct (String.string_dec x y) as [->|Hxy]; [left; left; reflexivity|].
      right. split; [exact Ht|]. intros [H|[H|[]]]; [contradiction|congruence].
Qed.

Lemma keepFirst_NoDup (before l : list string) : NoDup (keepFirst before l).
Proof.
  revert before. induction l as [|y t IH]; intros before; simpl; [constructor|].
  destruct (existsb (String.eqb y) before); simpl; [apply IH|].
  constructor; [|apply IH].
  rewrite keepFirst_In, in_app_iff. simpl. tauto.
Qed.

Lemma getSpotifyLinks_scan env url doc :
  fetchDocument env url = Ok doc ->
  getSpotifyLinks env url =
    Ok (firstOccurrences (filter (fun v => includes v "p.scdn.co") (concat doc))).
Proof.
  intros Hf. unfold getSpotifyLinks. rewrite Hf. f_equal.
  unfold scan. rewrite scan_concat.
  rewrite (visit_fold (concat doc) [] []); [reflexivity|tauto].
Qed.

(** C6: for a successfully fetched document, [getSpotifyLinks] returns the
    attribute values containing the CDN marker [p.scdn.co], each once,
    in the order of their first occurrence in the scan; it returns [[]]
    exactly when no attribute value contains the marker. *)
Theorem getSpotifyLinks_preview_set env url doc :
  fetchDocument env url = Ok doc ->
  exists res,
    getSpotifyLinks env url = Ok res /\
    res = firstOccurrences (filter (fun v => includes v "p.scdn.co") (concat doc)) /\
    NoDup res /\
    (forall x, In x res <-> In x (concat doc) /\ includes x "p.scdn.co" = true) /\
    (res = [] <-> forall x, In x (concat doc) -> includes x "p.scdn.co" = false).
Proof.
  intros Hf. eexists. split; [apply (getSpotifyLinks_scan _ _ _ Hf)|].
  split; [reflexivity|]. split; [apply keepFirst_NoDup|].
  assert (Hin : forall x,
    In x (firstOccurrences (filter (fun v => includes v "p.scdn.co") (concat doc))) <->
    In x (concat doc) /\ includes x "p.scdn.co" = true).
  { intros x. unfold firstOccurrences. rewrite keepFirst_In, filter_In. simpl. tauto. }
  split; [exact Hin|]. split.
  - intros Hnil x Hx. destruct (includes x "p.scdn.co") eqn:Hm; [|reflexivity].
    exfalso. assert (H : In x []) by (rewrite <- Hnil; apply Hin; auto). exact H.
  - intros Hnone.
    destruct (firstOccurrences _) as [|y ys] eqn:Hr; [reflexivity|].
    exfalso. destruct (proj1 (Hin y) (or_introl eq_refl)) as [Hy Hm].
    rewrite (Hnone y Hy) in Hm. discriminate.
Qed.

Lemma getSpotifyLinks_preview_set_witness :
  fetchDocument (stubEnv None [] []) "https://open.spotify.com/track/abc" = Ok previewDoc /\
  exists res,
    getSpotifyLinks (stubEnv None [] []) "https://open.spotify.com/track/abc" = Ok res /\
    res = firstOccurrences (filter (fun v => includes v "p.scdn.co") (concat previewDoc)) /\
    NoDup res /\
    (forall x, In x res <-> In x (concat previewDoc) /\ includes x "p.scdn.co" = true) /\
    (res = [] <-> forall x, In x (concat previewDoc) -> includes x "p.scdn.co" = false).
Proof.
  assert (H : fetchDocument (stubEnv None [] []) "https://open.spotify.com/track/abc" = Ok previewDoc)
    by reflexivity.
  split; [exact H|]. exact (getSpotifyLinks_preview_set _ _ _ H).
Defined.

(* ------------------------------------------------------------------------- *)
(** * Assembly of the results *)

(** C7: on success, [results] matches the retained candidates index by
    index, whatever the settlement order of the extractions: the [i]-th
    result is built from the [i]-th retained candidate, its name being the
    title, " - ", and the artist names joined by ", " in catalog order. *)
Theorem searchAndGetLinks_results_in_candidate_order env s a l :
  success (searchAndGetLinks env s a l) = true ->
  exists song items,
    s = Some song /\
    searchTracks env (resolvedQuery song a l) = Ok (Some items) /\
    length (results (searchAndGetLinks env s a l)) =
      length (slice0 items (snd (parseArgs a l))) /\
    forall i t, nth_error (slice0 items (snd (parseArgs a l))) i = Some t ->
      exists info,
        nth_error (results (searchAndGetLinks env s a l)) i = Some info /\
        name info = t_name t ++ " - " ++ join ", " (t_artists t) /\
        spotifyUrl info = t_spotify_url t /\
        trackId info = t_id t /\
        getSpotifyLinks env (t_spotify_url t) = Ok (previewUrls info).
Proof.
  intros Hs.
  destruct (success_results_length _ _ _ _ Hs)
    as (song & items & Heq & Hsearch & _ & HF & Hlen).
  exists song, items. repeat split; auto.
  intros i t Hi.
  assert (Hm : nth_error (map (trackToInfo env) (slice0 items (snd (parseArgs a l)))) i =
               Some (trackToInfo env t)) by (rewrite nth_error_map, Hi; reflexivity).
  destruct (Forall2_nth_error_l _ _ _ _ _ HF Hm) as (info & Hinfo & Hok).
  exists info. split; [exact Hinfo|].
  revert Hok. unfold trackToInfo.
  destruct (getSpotifyLinks env (t_spotify_url t)) as [urls|e]; simpl; [|discriminate].
  intros H. injection H as <-. simpl. auto.
Qed.

Lemma searchAndGetLinks_results_in_candidate_order_witness :
  success (searchAndGetLinks (stubEnv (Some [shapeOfYou; perfect]) [] [1%nat; 0%nat])
             (Some "Shape of You") (AL_number (num 2)) None) = true /\
  exists song items,
    Some "Shape of You" = Some song /\
    searchTracks (stubEnv (Some [shapeOfYou; perfect]) [] [1%nat; 0%nat])
      (resolvedQuery song (AL_number (num 2)) None) = Ok (Some items) /\
    length (results (searchAndGetLinks (stubEnv (Some [shapeOfYou; perfect]) [] [1%nat; 0%nat])
             (Some "Shape of You") (AL_number (num 2)) None)) =
      length (slice0 items (snd (parseArgs (AL_number (num 2)) None))) /\
    forall i t, nth_error (slice0 items (snd (parseArgs (AL_number (num 2)) None))) i = Some t ->
      exists info,
        nth_error (results (searchAndGetLinks (stubEnv (Some [shapeOfYou; perfect]) [] [1%nat; 0%nat])
                     (Some "Shape of You") (AL_number (num 2)) None)) i = Some info /\
        name info = t_name t ++ " - " ++ join ", " (t_artists t) /\
        spotifyUrl info = t_spotify_url t /\
        trackId info = t_id t /\
        getSpotifyLinks (stubEnv (Some [shapeOfYou; perfect]) [] [1%nat; 0%nat])
          (t_spotify_url t) = Ok (previewUrls info).
Proof.
  assert (H : success (searchAndGetLinks (stubEnv (Some [shapeOfYou; perfect]) [] [1%nat; 0%nat])
             (Some "Shape of You") (AL_number (num 2)) None) = true) by (vm_compute; reflexivity).
  split; [exact H|]. exact (searchAndGetLinks_results_in_candidate_order _ _ _ _ H).
Defined.

Example perfect_display_name :
  option_map name
    (nth_error (results (searchAndGetLinks (stubEnv (Some [shapeOfYou; perfect]) [] [1%nat; 0%nat])
                  (Some "Perfect") (AL_number (num 2)) None)) 1)
  = Some "Perfect - Ed Sheeran, Beyonce".
Proof. vm_compute. reflexivity. Qed.

(* ------------------------------------------------------------------------- *)
(** * Further properties of the code *)

(** The configuration check: for every environment, song name and pair of
    arguments, when the song name is non-empty and [SPOTIFY_CLIENT_ID] or
    [SPOTIFY_CLIENT_SECRET] is missing or empty, the call fails with the
    fixed configuration message, which mentions the required environment
    variables, whatever the catalog and the pages would have answered. *)
Theorem missing_credentials_fail_fast env song a l :
  song <> EmptyString ->
  (truthy (SPOTIFY_CLIENT_ID env) = false \/ truthy (SPOTIFY_CLIENT_SECRET env) = false) ->
  searchAndGetLinks env (Some song) a l =
    failure "SPOTIFY_CLIENT_ID and SPOTIFY_CLIENT_SECRET environment variables are required" /\
  includes "SPOTIFY_CLIENT_ID and SPOTIFY_CLIENT_SECRET environment variables are required"
    "environment variables are required" = true.
Proof.
  intros Hne Hcred. split; [|vm_compute; reflexivity].
  assert (Hc : createSpotifyApi env =
    Throw (JsError "SPOTIFY_CLIENT_ID and SPOTIFY_CLIENT_SECRET environment variables are required")).
  { unfold createSpotifyApi.
    destruct Hcred as [H|H]; rewrite H; [reflexivity|]. rewrite orb_true_r. reflexivity. }
  unfold searchAndGetLinks, searchBody. rewrite (truthy_nonempty _ Hne). simpl negb. cbv iota.
  destruct (parseArgs a l). rewrite Hc. reflexivity.
Qed.

Lemma missing_credentials_fail_fast_witness :
  searchAndGetLinks
    {| SPOTIFY_CLIENT_ID := Some "id"; SPOTIFY_CLIENT_SECRET := Some EmptyString;
       clientCredentialsGrant := Ok "token";
       searchTracks := fun _ => Ok (Some [shapeOfYou]);
       fetchDocument := fun _ => Ok previewDoc; settleOrder := [] |}
    (Some "Shape of You") AL_undefined None =
    failure "SPOTIFY_CLIENT_ID and SPOTIFY_CLIENT_SECRET environment variables are required" /\
  includes "SPOTIFY_CLIENT_ID and SPOTIFY_CLIENT_SECRET environment variables are required"
    "environment variables are required" = true.
Proof.
  apply (missing_credentials_fail_fast
           {| SPOTIFY_CLIENT_ID := Some "id"; SPOTIFY_CLIENT_SECRET := Some EmptyString;
           clientCredentialsGrant := Ok "token";
           searchTracks := fun _ => Ok (Some [shapeOfYou]);
           fetchDocument := fun _ => Ok previewDoc; settleOrder := [] |}
           "Shape of You" AL_undefined None).
  - discriminate.
  - right. reflexivity.
Defined.

(** A failing credential exchange is caught by the handler: the call fails
    with the exchange's error message ("Unknown error" for a non-[Error]),
    before any search. *)
Theorem searchAndGetLinks_grant_failure env song a l e :
  song <> EmptyString ->
  createSpotifyApi env = Ok tt ->
  clientCredentialsGrant env = Throw e ->
  searchAndGetLinks env (Some song) a l = failure (errorMessage e).
Proof.
  intros Hne Hc Hg.
  unfold searchAndGetLinks, searchBody. rewrite (truthy_nonempty _ Hne). simpl negb. cbv iota.
  destruct (parseArgs a l). rewrite Hc. simpl. rewrite Hg. reflexivity.
Qed.

Lemma searchAndGetLinks_grant_failure_witness :
  let env := {| SPOTIFY_CLIENT_ID := Some "id"; SPOTIFY_CLIENT_SECRET := Some "secret";
                clientCredentialsGrant := Throw NonError;
                searchTracks := fun _ => Ok (Some [shapeOfYou]);
                fetchDocument := fun _ => Ok previewDoc; settleOrder := [] |} in
  searchAndGetLinks env (Some "Shape of You") AL_undefined None = failure (errorMessage NonError).
Proof.
  intros env.
  apply (searchAndGetLinks_grant_failure env "Shape of You" AL_undefined None NonError);
    [discriminate|reflexivity|reflexivity].
Defined.

(** A failing catalog search is caught by the handler: the call fails with
    the search's own error message, unprefixed. *)
Theorem searchAndGetLinks_search_failure env song a l e :
  song <> EmptyString ->
  createSpotifyApi env = Ok tt ->
  (exists token, clientCredentialsGrant env = Ok token) ->
  searchTracks env (resolvedQuery song a l) = Throw e ->
  searchAndGetLinks env (Some song) a l = failure (errorMessage e).
Proof.
  intros Hne Hc [tok Hg] Hs.
  unfold searchAndGetLinks, searchBody. rewrite (truthy_nonempty _ Hne). simpl negb. cbv iota.
  unfold resolvedQuery in Hs. destruct (parseArgs a l). simpl in Hs.
  rewrite Hc. simpl. rewrite Hg. simpl. rewrite Hs. reflexivity.
Qed.

Lemma searchAndGetLinks_search_failure_witness :
  let env := {| SPOTIFY_CLIENT_ID := Some "id"; SPOTIFY_CLIENT_SECRET := Some "secret";
                clientCredentialsGrant := Ok "token";
                searchTracks := fun _ => Throw (JsError "Bad Request");
                fetchDocument := fun _ => Ok previewDoc; settleOrder := [] |} in
  searchAndGetLinks env (Some "Shape of You") (AL_string "Ed Sheeran") (Some (num 2))
    = failure "Bad Request".
Proof.
  intros env.
  apply (searchAndGetLinks_search_failure env "Shape of You" (AL_string "Ed Sheeran") (Some (num 2))
           (JsError "Bad Request")); [discriminate|reflexivity| |reflexivity].
  exists "token". reflexivity.
Defined.

Lemma keepFirst_covered (before l : list string) :
  (forall x, In x l -> In x before) -> keepFirst before l = [].
Proof.
  revert before. induction l as [|y t IH]; intros before H; simpl; [reflexivity|].
  assert (Hy : existsb (String.eqb y) before = true)
    by (apply existsb_eqb_In, H; left; reflexivity).
  rewrite Hy. simpl. apply IH.
  intros x Hx. apply in_app_iff. left. apply H. right. exact Hx.
Qed.

(** The scan composes over the document: scanning [d1 ++ d2] gives the
    links of [d1], in the same order, followed by the marker values of
    [d2] at their first occurrence that [d1] did not already contain; in
    particular a document repeated twice yields the same links as once. *)
Theorem scan_app (d1 d2 : Document) :
  scan (d1 ++ d2)%list =
    (scan d1 ++
     keepFirst (filter (fun v => includes v "p.scdn.co") (concat d1))
               (filter (fun v => includes v "p.scdn.co") (concat d2)))%list /\
  scan (d1 ++ d1)%list = scan d1.
Proof.
  assert (Hs : forall d, scan d = keepFirst [] (filter (fun v => includes v "p.scdn.co") (concat d))).
  { intros d. unfold scan. rewrite scan_concat.
    rewrite (visit_fold (concat d) [] []); [reflexivity|tauto]. }
  assert (Happ : forall d, scan (d1 ++ d)%list =
    (scan d1 ++ keepFirst (filter (fun v => includes v "p.scdn.co") (concat d1))
                          (filter (fun v => includes v "p.scdn.co") (concat d)))%list).
  { intros d. unfold scan at 1. rewrite scan_concat, concat_app, fold_left_app.
    rewrite (visit_fold (concat d1) [] []) by tauto. simpl.
    rewrite (visit_fold (concat d) _ (filter (fun v => includes v "p.scdn.co") (concat d1))).
    - rewrite Hs. reflexivity.
    - intros y. rewrite keepFirst_In. simpl. tauto. }
  split; [apply Happ|].
  rewrite Happ, keepFirst_covered by tauto. apply app_nil_r.
Qed.

Lemma In_slice0 {A : Type} (items : list A) L x :
  In x (slice0 items L) -> In x items.
Proof.
  unfold slice0. intros H.
  rewrite <- (firstn_skipn (Z.to_nat (sliceEnd (length items) L)) items).
  apply in_app_iff. left. exact H.
Qed.

Lemma success_results_from_candidates env s a l info :
  success (searchAndGetLinks env s a l) = true ->
  In info (results (searchAndGetLinks env s a l)) ->
  exists song items t,
    s = Some song /\
    searchTracks env (resolvedQuery song a l) = Ok (Some items) /\
    In t items /\ trackToInfo env t = Ok info.
Proof.
  intros Hs Hin.
  destruct (success_results_length _ _ _ _ Hs) as (song & items & Heq & Hsearch & _ & HF & _).
  destruct (In_nth_error _ _ Hin) as [i Hi].
  assert (HF' : Forall2 (fun v o => o = Ok v) (results (searchAndGetLinks env s a l))
                  (map (trackToInfo env) (slice0 items (snd (parseArgs a l))))).
  { clear -HF. induction HF; constructor; auto. }
  destruct (Forall2_nth_error_l _ _ _ _ _ HF' Hi) as (o & Ho & ->).
  destruct (nth_error_map_inv _ _ _ _ Ho) as (t & Ht & Htt).
  exists song, items, t. repeat split; auto.
  apply (In_slice0 _ (snd (parseArgs a l))). eapply nth_error_In. exact Ht.
Qed.

(** Every track of a successful result carries preview URLs that are
    pairwise distinct and each contain the CDN host [p.scdn.co]. *)
Theorem searchAndGetLinks_preview_urls_valid env s a l :
  success (searchAndGetLinks env s a l) = true ->
  forall info, In info (results (searchAndGetLinks env s a l)) ->
    NoDup (previewUrls info) /\
    forall u, In u (previewUrls info) -> includes u "p.scdn.co" = true.
Proof.
  intros Hs info Hin.
  destruct (success_results_from_candidates _ _ _ _ _ Hs Hin)
    as (song & items & t & _ & _ & _ & Htt).
  revert Htt. unfold trackToInfo.
  destruct (fetchDocument env (t_spotify_url t)) as [doc|e] eqn:Hf.
  - rewrite (getSpotifyLinks_scan _ _ _ Hf). simpl.
    intros H. injection H as <-. simpl. split; [apply keepFirst_NoDup|].
    intros u Hu. unfold firstOccurrences in Hu.
    apply keepFirst_In in Hu. destruct Hu as [Hu _].
    apply filter_In in Hu. apply Hu.
  - unfold getSpotifyLinks. rewrite Hf. simpl. discriminate.
Qed.

Lemma searchAndGetLinks_preview_urls_valid_witness :
  success (searchAndGetLinks (stubEnv (Some [shapeOfYou; perfect]) [] []) (Some "Shape of You")
             AL_undefined None) = true /\
  forall info, In info (results (searchAndGetLinks (stubEnv (Some [shapeOfYou; perfect]) [] [])
                                   (Some "Shape of You") AL_undefined None)) ->
    NoDup (previewUrls info) /\
    forall u, In u (previewUrls info) -> includes u "p.scdn.co" = true.
Proof.
  assert (H : success (searchAndGetLinks (stubEnv (Some [shapeOfYou; perfect]) [] [])
                (Some "Shape of You") AL_undefined None) = true) by (vm_compute; reflexivity).
  split; [exact H|]. exact (searchAndGetLinks_preview_urls_valid _ _ _ _ H).
Defined.



Lemma promise_all_ok_any_order {A : Type} (order order' : list nat) (outs : list (outcome A)) vs :
  promise_all order outs = Ok vs -> promise_all order' outs = Ok vs.
Proof.
  intros H. pose proof (promise_all_ok _ _ _ H) as HF.
  assert (Hno : forall i e, nth_error outs i <> Some (Throw e)).
  { intros i e Hi. destruct (Forall2_nth_error_l _ _ _ _ _ HF Hi) as (v & _ & Hv).
    discriminate. }
  assert (Hnone : forall o, first_rejection o outs = None).
  { induction o as [|j o IH]; simpl; [reflexivity|].
    destruct (nth_error outs j) as [[x|e]|] eqn:Hj; auto. exfalso. exact (Hno j e Hj). }
  revert H. unfold promise_all. rewrite !Hnone. auto.
Qed.

Lemma promise_all_throw_any_order {A : Type} (order order' : list nat) (outs : list (outcome A)) e :
  promise_all order outs = Throw e -> exists e', promise_all order' outs = Throw e'.
Proof.
  intros H. destruct (promise_all_throw _ _ _ H) as [j Hj].
  exact (promise_all_rejects order' _ _ _ Hj).
Qed.

Definition sameOutcome (o1 o2 : outcome SearchResult) : Prop :=
  match o1, o2 with
  | Ok r1, Ok r2 => r1 = r2
  | Throw _, Throw _ => True
  | _, _ => False
  end.

Lemma searchBody_settle_order env s a l o o' :
  sameOutcome (searchBody (withSettleOrder env o) s a l) (searchBody (withSettleOrder env o') s a l).
Proof.
  unfold searchBody, createSpotifyApi. simpl.
  destruct s as [song|]; simpl; [|exact I].
  destruct (negb (negb (String.eqb song EmptyString))); simpl; [exact I|].
  destruct (parseArgs a l) as [artist lim].
  destruct (negb (truthy (SPOTIFY_CLIENT_ID env)) || negb (truthy (SPOTIFY_CLIENT_SECRET env)));
    simpl; [exact I|].
  destruct (clientCredentialsGrant env) as [tok|e]; simpl; [|exact I].
  destruct (searchTracks env (buildSearchQuery song artist)) as [[items|]|e]; simpl;
    [|reflexivity|exact I].
  destruct (Nat.eqb (length items) 0); [reflexivity|].
  destruct (promise_all o (map (trackToInfo (withSettleOrder env o)) (slice0 items lim)))
    as [vs|e] eqn:Hp.
  - assert (Hm : map (trackToInfo (withSettleOrder env o)) (slice0 items lim) =
                 map (trackToInfo (withSettleOrder env o')) (slice0 items lim)) by reflexivity.
    rewrite Hm in Hp. rewrite (promise_all_ok_any_order o o' _ _ Hp). reflexivity.
  - assert (Hm : map (trackToInfo (withSettleOrder env o)) (slice0 items lim) =
                 map (trackToInfo (withSettleOrder env o')) (slice0 items lim)) by reflexivity.
    rewrite Hm in Hp. destruct (promise_all_throw_any_order o o' _ _ Hp) as [e' ->]. exact I.
Qed.

(** The order in which the concurrent extractions settle does not change
    whether the call succeeds, nor, when it succeeds, the result. *)
Theorem searchAndGetLinks_settle_order_independent env s a l o o' :
  success (searchAndGetLinks (withSettleOrder env o) s a l) =
    success (searchAndGetLinks (withSettleOrder env o') s a l) /\
  (success (searchAndGetLinks (withSettleOrder env o) s a l) = true ->
   searchAndGetLinks (withSettleOrder env o) s a l =
     searchAndGetLinks (withSettleOrder env o') s a l).
Proof.
  pose proof (searchBody_settle_order env s a l o o') as H.
  unfold searchAndGetLinks.
  destruct (searchBody (withSettleOrder env o) s a l) as [r1|e1];
    destruct (searchBody (withSettleOrder env o') s a l) as [r2|e2]; simpl in H;
    try contradiction.
  - subst. auto.
  - simpl. split; [reflexivity|discriminate].
Qed.

(** The third argument is read only when the second one is a string: with
    a numeric or absent second argument it is ignored (so
    [searchAndGetLinks(song, undefined, 10)] behaves as
    [searchAndGetLinks(song)]). *)
Theorem searchAndGetLinks_limit_arg_ignored env s n l l' :
  searchAndGetLinks env s (AL_number n) l = searchAndGetLinks env s (AL_number n) l' /\
  searchAndGetLinks env s AL_undefined l = searchAndGetLinks env s AL_undefined l'.
Proof. split; reflexivity. Qed.

(** The default limit: for every environment, song name and third
    argument, a successful call with no second argument uses the raw song
    name as its query and returns at most 5 tracks. *)
Theorem default_limit_at_most_five env song l :
  success (searchAndGetLinks env (Some song) AL_undefined l) = true ->
  searchQuery (searchAndGetLinks env (Some song) AL_undefined l) = Some song /\
  (length (results (searchAndGetLinks env (Some song) AL_undefined l)) <= 5)%nat.
Proof.
  intros Hs. split.
  - destruct (searchAndGetLinks_success_inv _ _ _ _ Hs)
      as (song' & items & Heq & _ & _ & _ & _ & _ & Hq).
    injection Heq as <-. exact Hq.
  - destruct (success_results_length _ _ _ _ Hs) as (song' & items & _ & _ & _ & _ & Hlen).
    rewrite Hlen, slice0_length. unfold sliceEnd. simpl. rewrite Z.quot_1_r. lia.
Qed.

Lemma default_limit_at_most_five_witness :
  success (searchAndGetLinks (stubEnv (Some [shapeOfYou; perfect; shapeOfYou; perfect; shapeOfYou; perfect]) [] []) (Some "Shape of You") AL_undefined (Some (num 10))) = true /\
  searchQuery (searchAndGetLinks (stubEnv (Some [shapeOfYou; perfect; shapeOfYou; perfect; shapeOfYou; perfect]) [] []) (Some "Shape of You") AL_undefined (Some (num 10)))
    = Some "Shape of You" /\
  (length (results (searchAndGetLinks (stubEnv (Some [shapeOfYou; perfect; shapeOfYou; perfect; shapeOfYou; perfect]) [] []) (Some "Shape of You") AL_undefined
                      (Some (num 10)))) <= 5)%nat.
Proof.
  assert (H : success (searchAndGetLinks (stubEnv (Some [shapeOfYou; perfect; shapeOfYou; perfect; shapeOfYou; perfect]) [] []) (Some "Shape of You") AL_undefined
                         (Some (num 10))) = true)
    by (vm_compute; reflexivity).
  split; [exact H|].
  exact (default_limit_at_most_five (stubEnv (Some [shapeOfYou; perfect; shapeOfYou; perfect; shapeOfYou; perfect]) [] []) "Shape of You" (Some (num 10)) H).
Defined.

(** [searchQuery] is present exactly on success: a failed result never
    carries a query. *)
Theorem searchAndGetLinks_query_iff_success env s a l :
  searchQuery (searchAndGetLinks env s a l) = None <->
  success (searchAndGetLinks env s a l) = false.
Proof.
  destruct (success (searchAndGetLinks env s a l)) eqn:Hs.
  - destruct (searchAndGetLinks_success_inv _ _ _ _ Hs)
      as (song & items & _ & _ & _ & _ & _ & _ & Hq).
    rewrite Hq. split; discriminate.
  - split; [reflexivity|intros _].
    destruct (searchAndGetLinks_cases env s a l) as [Hok|[e [_ Hr]]].
    + destruct (searchBody_ok_shape _ _ _ _ _ Hok) as [Hn|[Ht _]];
        [rewrite Hn; reflexivity|congruence].
    + rewrite Hr. reflexivity.
Qed.
